(** * A deterministic finite automaton and its acceptance check

    Shallow embedding of the class [DeterministicFiniteAutomaton] of
    [examples/gallery/computer_science/finite_state_machine.ipynb]
    (methods [__init__] and [accepts], and the graph description built by
    [plot_structure]) and of the instance [m1] built in the same notebook.

    Python values are modelled as follows.
    - The [set] arguments ([states], [alphabet], [accepting_states]) are
      finite sets ([gset]); the nested [dict] [transitions] is a finite map
      of finite maps ([gmap]).
    - States and symbols are any hashable values: types with decidable
      equality that are countable.  Symbols can moreover be shown as text
      (Python's [str]), which [str.format] would use.
    - The exceptions the method can raise are [ValueError] (raised by the
      method itself, the specification's [InvalidSymbolError]) and
      [KeyError] (raised by a subscript [d[k]] on a missing key, the
      specification's [UndefinedTransitionError]).
    - A method call is a function from the object [self] to an outcome
      and the object after the call. *)

From Stdlib Require Import Ascii.
From stdpp Require Import gmap strings list fin_maps.

(** ** Python built-ins used by the class *)

(** [str(x)]: the text of a value. *)
Class Str (A : Type) := str : A → string.
Global Instance string_str : Str string := λ s, s.

(** [template.format(arg)], for templates made of literal text and
    automatic replacement fields [{}]: literal text is copied and a field
    is replaced by the text of the argument.  An argument that no field
    refers to is ignored, as Python does. *)
Fixpoint format (template : string) (arg : string) : string :=
  match template with
  | String "{"%char (String "}"%char rest) => arg +:+ format rest arg
  | String c rest => String c (format rest arg)
  | EmptyString => EmptyString
  end.

(** Iterating over a Python [str] yields its characters, each one a [str]
    of length one. *)
Fixpoint iter_str (s : string) : list string :=
  match s with
  | EmptyString => []
  | String c rest => String c EmptyString :: iter_str rest
  end.

(** [needle in text]: the substring test on [str]. *)
Fixpoint starts_with (needle text : string) : bool :=
  match needle, text with
  | EmptyString, _ => true
  | String c needle', String d text' =>
      if decide (c = d) then starts_with needle' text' else false
  | String _ _, EmptyString => false
  end.

Fixpoint occurs_in (needle text : string) : bool :=
  starts_with needle text
  || match text with
     | EmptyString => false
     | String _ text' => occurs_in needle text'
     end.

Section dfa.
Context `{Countable State, Countable Symbol, Str Symbol}.

(** ** Exceptions and outcomes *)

(** [KeyError] carries the key that was looked up: a state for the outer
    dictionary, a symbol for the inner one. *)
Inductive exn :=
| ValueError (msg : string)
| KeyError (key : State + Symbol).

Inductive outcome (A : Type) :=
| Return (a : A)
| Raise (e : exn).
Global Arguments Return {A} a.
Global Arguments Raise {A} e.

(** ** The object *)

Record DeterministicFiniteAutomaton := mkDFA {
  states : gset State;
  alphabet : gset Symbol;
  transitions : gmap State (gmap Symbol State);
  start_state : State;
  accepting_states : gset State
}.

(** [__init__]: five attribute assignments. *)
Definition __init__ (states : gset State) (alphabet : gset Symbol)
    (transitions : gmap State (gmap Symbol State)) (start_state : State)
    (accepting_states : gset State) : DeterministicFiniteAutomaton :=
  {| states := states;
     alphabet := alphabet;
     transitions := transitions;
     start_state := start_state;
     accepting_states := accepting_states |}.

(** ** Method bodies: computations over [self] that may raise *)

Definition M (A : Type) : Type :=
  DeterministicFiniteAutomaton → outcome A * DeterministicFiniteAutomaton.

Definition ret {A} (a : A) : M A := λ self, (Return a, self).

Definition raise {A} (e : exn) : M A := λ self, (Raise e, self).

Definition bind {A B} (m : M A) (k : A → M B) : M B :=
  λ self,
    match m self with
    | (Return a, self') => k a self'
    | (Raise e, self') => (Raise e, self')
    end.

(** [self.field] *)
Definition getattr {A} (field : DeterministicFiniteAutomaton → A) : M A :=
  λ self, (Return (field self), self).

(** [d[k]]: the value stored under [k], or [KeyError(k)]. *)
Definition getitem {K V} `{Countable K} (as_key : K → State + Symbol)
    (d : gmap K V) (k : K) : M V :=
  match d !! k with
  | Some v => ret v
  | None => raise (KeyError (as_key k))
  end.

Notation "'let!' x ':=' m 'in' k" := (bind m (λ x, k))
  (at level 10, x name, m at level 100, k at level 200).

(** ** accepts *)

(** The body of the [for] loop: the membership test, then the double
    subscript [self.transitions[current_state][symbol]]. *)
Definition loop_body (current_state : State) (symbol : Symbol) : M State :=
  let! sigma := getattr alphabet in
  if decide (symbol ∉ sigma) then
    raise (ValueError (format "String contains invalid symbol: " (str symbol)))
  else
    let! delta := getattr transitions in
    let! row := getitem inl delta current_state in
    getitem inr row symbol.

(** [for symbol in string: ...], threading the local [current_state]. *)
Fixpoint for_loop (current_state : State) (string : list Symbol) : M State :=
  match string with
  | [] => ret current_state
  | symbol :: rest =>
      let! next_state := loop_body current_state symbol in
      for_loop next_state rest
  end.

Definition accepts (string : list Symbol) : M bool :=
  let! current_state := getattr start_state in
  let! current_state := for_loop current_state string in
  let! final := getattr accepting_states in
  if decide (current_state ∈ final) then ret true else ret false.

End dfa.

Global Arguments exn : clear implicits.
Global Arguments DeterministicFiniteAutomaton : clear implicits.
Global Arguments DeterministicFiniteAutomaton _ {_ _} _ {_ _}.

(** ** The instance of the notebook *)

Definition m1 : DeterministicFiniteAutomaton string string :=
  __init__
    {[ "q0"; "q1"; "q2"; "q3" ]}
    {[ "0"; "1" ]}
    (<[ "q0" := <[ "0" := "q0" ]> (<[ "1" := "q1" ]> ∅) ]>
     (<[ "q1" := <[ "0" := "q0" ]> (<[ "1" := "q2" ]> ∅) ]>
     (<[ "q2" := <[ "0" := "q0" ]> (<[ "1" := "q3" ]> ∅) ]>
     (<[ "q3" := <[ "0" := "q0" ]> (<[ "1" := "q3" ]> ∅) ]> ∅))))
    "q0"
    {[ "q3" ]}.

(** An automaton with a partially specified table, used to exercise the
    lookups that fail: there is no entry for ['0'] in state [q0]. *)
Definition m_gap : DeterministicFiniteAutomaton string string :=
  __init__
    {[ "q0"; "q1" ]}
    {[ "0"; "1" ]}
    (<[ "q0" := <[ "1" := "q1" ]> ∅ ]>
     (<[ "q1" := <[ "0" := "q0" ]> (<[ "1" := "q1" ]> ∅) ]> ∅))
    "q0"
    {[ "q1" ]}.

(** ** Notions used to state the properties *)

Section notions.
Context `{Countable State, Countable Symbol, Str Symbol}.
Implicit Types (self : DeterministicFiniteAutomaton State Symbol).
Implicit Types (q : State) (s : Symbol) (w : list Symbol).

(** The entry of the table for a state and a symbol, if there is one. *)
Definition delta self q s : option State :=
  row ← transitions self !! q; row !! s.

(** The key that the double subscript misses first. *)
Definition missing_key self q s : State + Symbol :=
  match transitions self !! q with
  | None => inl q
  | Some _ => inr s
  end.

(** The run from the start state consumes [w] and arrives in [q]. *)
Definition reaches self w q : Prop :=
  fst (for_loop (start_state self) w self) = Return q.

(** The table has an entry, leading to a declared state, for every
    declared state and every symbol of the alphabet. *)
Definition transitions_total self : Prop :=
  set_Forall (λ q,
    set_Forall (λ s,
      match delta self q s with
      | Some q' => q' ∈ states self
      | None => False
      end) (alphabet self)) (states self).

(** The same automaton with another set of states. *)
Definition with_states (Q : gset State) self :=
  __init__ Q (alphabet self) (transitions self) (start_state self)
    (accepting_states self).

(** [iterations self n q w r]: started in [q] on input [w], the loop
    enters its body [n] times and ends with [r]: a state when the input
    is exhausted, an exception when an iteration raises. *)
Inductive iterations self : nat → State → list Symbol → outcome State → Prop :=
| iterations_exhausted q :
    iterations self 0 q [] (Return q)
| iterations_raise q s w e :
    fst (loop_body q s self) = Raise e →
    iterations self 1 q (s :: w) (Raise e)
| iterations_next q s w q' n r :
    fst (loop_body q s self) = Return q' →
    iterations (snd (loop_body q s self)) n q' w r →
    iterations self (S n) q (s :: w) r.

End notions.

(** The same automaton started in another state. *)
Definition with_start `{Countable State, Countable Symbol}
    (q : State) (self : DeterministicFiniteAutomaton State Symbol) :=
  __init__ (states self) (alphabet self) (transitions self) q
    (accepting_states self).

(** ** plot_structure: the graph description

    The method builds a list of nodes and a list of edges, wraps them in a
    graph description [data_jgf] and hands that to the plotting library;
    the model stops at [data_jgf].  Node ids, labels and edge labels are
    the states and symbols themselves, so that the hidden start node
    ['__start'] lives among the states: the model is for automata whose
    states and symbols are strings, as in the notebook.

    Python visits a [set] in an unspecified order and a [dict] in
    insertion order; [elements] and [map_to_list] fix some order.  The
    properties proved below speak of membership, counts and duplicates
    only, which do not depend on that order. *)

(** The values stored in the metadata dictionaries: text, an [int], or a
    [float] literal written as a decimal ([1.5] is 15 times ten to the
    minus one). *)
Inductive jvalue :=
| JStr (s : string)
| JInt (n : Z)
| JFloat (digits : Z) (exponent : Z).

Record node := mkNode {
  node_id : string;
  node_label : string;
  node_metadata : option (list (string * jvalue))
}.

Record edge := mkEdge {
  edge_source : string;
  edge_target : string;
  edge_label : string
}.

Record graph := mkGraph {
  graph_directed : bool;
  graph_metadata : list (string * jvalue);
  graph_nodes : list node;
  graph_edges : list edge
}.

Definition hidden_start_node : node :=
  mkNode "__start" "" (Some [("size", JStr "0")]).

(** The node appended for one state: with a border when accepting. *)
Definition state_node (self : DeterministicFiniteAutomaton string string)
    (state : string) : node :=
  if decide (state ∈ accepting_states self) then
    mkNode state state
      (Some [("border_size", JFloat 15 (-1)); ("border_color", JStr "black")])
  else
    mkNode state state None.

Definition plot_structure_nodes
    (self : DeterministicFiniteAutomaton string string) : list node :=
  hidden_start_node :: (state_node self <$> elements (states self)).

Definition hidden_start_edge
    (self : DeterministicFiniteAutomaton string string) : edge :=
  mkEdge "__start" (start_state self) "".

(** The edges appended by the two nested loops over [transitions]. *)
Definition transition_edges
    (self : DeterministicFiniteAutomaton string string) : list edge :=
  '(source, values) ← map_to_list (transitions self);
  (λ '(label, target), mkEdge source target label) <$> map_to_list values.

Definition plot_structure_edges
    (self : DeterministicFiniteAutomaton string string) : list edge :=
  hidden_start_edge self :: transition_edges self.

Definition data_jgf
    (self : DeterministicFiniteAutomaton string string) : graph :=
  mkGraph true
    [("node_size", JInt 20); ("node_color", JStr "green");
     ("node_label_color", JStr "green"); ("edge_label_size", JInt 10);
     ("edge_label_color", JStr "blue")]
    (plot_structure_nodes self)
    (plot_structure_edges self).

(** A walk along edges: from a node, over edges labelled by the symbols
    of [w] in turn, to a node. *)
Inductive path (edges : list edge) : string → list string → string → Prop :=
| path_here q : path edges q [] q
| path_edge q s q' w q'' :
    mkEdge q q' s ∈ edges → path edges q' w q'' →
    path edges q (s :: w) q''.

(** Every row belongs to a declared state and leads to declared states. *)
Definition table_within_states
    (self : DeterministicFiniteAutomaton string string) : Prop :=
  map_Forall (λ q row,
    q ∈ states self ∧ map_Forall (λ _ q', q' ∈ states self) row)
    (transitions self).

(** Every declared state has a row, and every row has exactly one entry
    per symbol of the alphabet. *)
Definition table_complete
    (self : DeterministicFiniteAutomaton string string) : Prop :=
  dom (transitions self) = states self
  ∧ map_Forall (λ _ row, dom row = alphabet self) (transitions self).

(** The number of ['1'] at the front of a list of symbols, and the state
    of [m1] that stands for that many ['1'] read last. *)
Fixpoint leading_ones (w : list string) : nat :=
  match w with
  | s :: w' => if decide (s = "1") then S (leading_ones w') else 0
  | [] => 0
  end.

Definition m1_state (n : nat) : string :=
  match n with
  | 0 => "q0"
  | 1 => "q1"
  | 2 => "q2"
  | _ => "q3"
  end.

(** ** Basic facts about the loop *)

Section facts.
Context `{Countable State, Countable Symbol, Str Symbol}.
Implicit Types (self : DeterministicFiniteAutomaton State Symbol).
Implicit Types (q : State) (s : Symbol) (w string : list Symbol).

(** The text of the [ValueError]: the template has no replacement
    field, so the symbol does not appear in it. *)
Lemma invalid_symbol_message (arg : string) :
  format "String contains invalid symbol: " arg
  = "String contains invalid symbol: ".
Proof. reflexivity. Qed.

(** The four ways through the loop body. *)
Lemma loop_body_invalid self q s :
  s ∉ alphabet self →
  loop_body q s self
  = (Raise (ValueError (format "String contains invalid symbol: " (str s))), self).
Proof.
  intros Hs. unfold loop_body, bind, getattr, raise.
  destruct (decide (s ∉ alphabet self)); [reflexivity | contradiction].
Qed.

Lemma loop_body_valid self q s :
  s ∈ alphabet self →
  loop_body q s self
  = match delta self q s with
    | Some q' => (Return q', self)
    | None => (Raise (KeyError (missing_key self q s)), self)
    end.
Proof.
  intros Hs. unfold loop_body, bind, getattr, getitem, raise, ret.
  unfold delta, missing_key.
  destruct (decide (s ∉ alphabet self)) as [Hn | _]; [contradiction |].
  destruct (transitions self !! q) as [row |]; simpl; [| reflexivity].
  destruct (row !! s); reflexivity.
Qed.

(** No path through the body assigns to an attribute of [self]. *)
Lemma loop_body_self self q s : snd (loop_body q s self) = self.
Proof.
  destruct (decide (s ∈ alphabet self)) as [Hs | Hs].
  - rewrite (loop_body_valid _ _ _ Hs). destruct (delta self q s); reflexivity.
  - rewrite (loop_body_invalid _ _ _ Hs). reflexivity.
Qed.

Lemma for_loop_self self q w : snd (for_loop q w self) = self.
Proof.
  revert q. induction w as [| s w IH]; intros q; simpl; [reflexivity |].
  unfold bind. pose proof (loop_body_self self q s) as Hb.
  destruct (loop_body q s self) as [[q' | e] self']; simpl in Hb; subst self'.
  - apply IH.
  - reflexivity.
Qed.

Lemma for_loop_cons self q s w :
  for_loop q (s :: w) self
  = match fst (loop_body q s self) with
    | Return q' => for_loop q' w self
    | Raise e => (Raise e, self)
    end.
Proof.
  simpl. unfold bind. pose proof (loop_body_self self q s) as Hb.
  destruct (loop_body q s self) as [[q' | e] self']; simpl in *; subst; reflexivity.
Qed.

Lemma for_loop_app self q w1 w2 :
  for_loop q (w1 ++ w2) self
  = match fst (for_loop q w1 self) with
    | Return q' => for_loop q' w2 self
    | Raise e => (Raise e, self)
    end.
Proof.
  revert q. induction w1 as [| s w1 IH]; intros q; [reflexivity |].
  rewrite <- app_comm_cons, !for_loop_cons.
  destruct (fst (loop_body q s self)) as [q' | e]; [apply IH | reflexivity].
Qed.

(** [accepts] is the loop from the start state followed by the
    membership test. *)
Lemma accepts_unfold self string :
  accepts string self
  = match fst (for_loop (start_state self) string self) with
    | Return q => (Return (bool_decide (q ∈ accepting_states self)), self)
    | Raise e => (Raise e, self)
    end.
Proof.
  unfold accepts, bind, getattr.
  pose proof (for_loop_self self (start_state self) string) as Hl.
  destruct (for_loop (start_state self) string self) as [[q | e] self'];
    simpl in *; subst self'; [| reflexivity].
  unfold ret. case_bool_decide; destruct (decide _); done.
Qed.

Lemma accepts_self self string : snd (accepts string self) = self.
Proof.
  rewrite accepts_unfold.
  destruct (fst (for_loop (start_state self) string self)); reflexivity.
Qed.

(** The first error decides the outcome, whatever follows it. *)
Lemma accepts_raise_after self w q s rest e :
  reaches self w q →
  fst (loop_body q s self) = Raise e →
  fst (accepts (w ++ s :: rest) self) = Raise e.
Proof.
  unfold reaches. intros Hw Hb.
  rewrite accepts_unfold, for_loop_app, Hw, for_loop_cons, Hb. reflexivity.
Qed.

(** A run that arrives somewhere only consumed symbols of the alphabet. *)
Lemma for_loop_return_valid self q w q' :
  fst (for_loop q w self) = Return q' → Forall (λ s, s ∈ alphabet self) w.
Proof.
  revert q. induction w as [| s w IH]; intros q Hq; [constructor |].
  rewrite for_loop_cons in Hq.
  destruct (decide (s ∈ alphabet self)) as [Hs | Hs].
  - constructor; [exact Hs |].
    destruct (fst (loop_body q s self)) as [q1 | e]; [eauto | discriminate].
  - rewrite (loop_body_invalid _ _ _ Hs) in Hq. discriminate.
Qed.

End facts.

(** ** Runs: iteration counts, first errors, total tables *)

Section runs.
Context `{Countable State, Countable Symbol, Str Symbol}.
Implicit Types (self : DeterministicFiniteAutomaton State Symbol).
Implicit Types (q : State) (s : Symbol) (w string : list Symbol).

Global Instance transitions_total_dec self : Decision (transitions_total self).
Proof.
  unfold transitions_total.
  apply set_Forall_dec; intros q. apply set_Forall_dec; intros s.
  destruct (delta self q s); apply _.
Defined.

(** Every run of the loop has an iteration count, at most the length of
    the input, and reaches the end of the input only after one iteration
    per symbol. *)
Lemma for_loop_iterations self q w :
  ∃ n, iterations self n q w (fst (for_loop q w self))
       ∧ n ≤ length w
       ∧ (∀ q', fst (for_loop q w self) = Return q' → n = length w).
Proof.
  revert q. induction w as [| s w IH]; intros q.
  - exists 0. split; [constructor | split; [lia | reflexivity]].
  - rewrite for_loop_cons.
    destruct (fst (loop_body q s self)) as [q1 | e] eqn:Hb.
    + destruct (IH q1) as (n & Hrun & Hle & Hlen).
      exists (S n). split; [| split].
      * eapply iterations_next; [exact Hb |]. rewrite loop_body_self. exact Hrun.
      * simpl. lia.
      * intros q' Hq'. simpl. f_equal. eauto.
    + exists 1. split; [| split].
      * apply iterations_raise. exact Hb.
      * simpl. lia.
      * intros q'. simpl. discriminate.
Qed.

(** The count and the result of a run are determined by its start. *)
Lemma iterations_functional self n1 n2 q w r1 r2 :
  iterations self n1 q w r1 → iterations self n2 q w r2 →
  n1 = n2 ∧ r1 = r2.
Proof.
  intros Hrun1. revert n2 r2.
  induction Hrun1 as [self q | self q s w e Hb | self q s w q' n r Hb _ IH];
    intros n2 r2 Hrun2; inversion Hrun2; subst; try (split; congruence).
  assert (q' = q'0) by congruence. subst q'0.
  destruct (IH _ _ ltac:(eassumption)) as [-> ->]. split; reflexivity.
Qed.

(** A run that raises in its [j]-th iteration took [j] iterations. *)
Lemma iterations_raise_after self q0 w q s rest e :
  fst (for_loop q0 w self) = Return q →
  fst (loop_body q s self) = Raise e →
  iterations self (S (length w)) q0 (w ++ s :: rest) (Raise e).
Proof.
  revert q0. induction w as [| x w IH]; intros q0 Hw Hb; simpl in *.
  - injection Hw as <-. apply iterations_raise. exact Hb.
  - change (fst (for_loop q0 (x :: w) self) = Return q) in Hw.
    rewrite for_loop_cons in Hw.
    destruct (fst (loop_body q0 x self)) as [q1 | e1] eqn:Hx; [| discriminate].
    eapply iterations_next; [exact Hx |]. rewrite loop_body_self. eauto.
Qed.

(** An input with a symbol outside the alphabet makes the loop raise at
    the first position where its body raises: there the symbol is
    invalid, or valid with no entry in the table. *)
Lemma for_loop_first_error self w s q0 :
  s ∈ w → s ∉ alphabet self →
  ∃ w1 q s0 rest,
    w = w1 ++ s0 :: rest
    ∧ fst (for_loop q0 w1 self) = Return q
    ∧ (((s0 ∉ alphabet self)
        ∧ (∃ msg, fst (for_loop q0 w self) = Raise (ValueError msg)))
       ∨ (s0 ∈ alphabet self
          ∧ delta self q s0 = None
          ∧ fst (for_loop q0 w self) = Raise (KeyError (missing_key self q s0)))).
Proof.
  intros Hin Hs. revert q0.
  induction w as [| x w IH]; intros q0; [by apply elem_of_nil in Hin |].
  destruct (decide (x ∈ alphabet self)) as [Hx | Hx].
  - assert (s ∈ w) as Hin'.
    { apply elem_of_cons in Hin as [-> | ?]; [contradiction | assumption]. }
    destruct (delta self q0 x) as [q1 |] eqn:Hd.
    + destruct (IH Hin' q1) as (w1 & q & s0 & rest & -> & Hw1 & Hcase).
      exists (x :: w1), q, s0, rest.
      assert (∀ v, fst (for_loop q0 (x :: v) self) = fst (for_loop q1 v self)) as Hstep.
      { intros v. by rewrite for_loop_cons, (loop_body_valid _ _ _ Hx), Hd. }
      split; [reflexivity |]. split; [by rewrite Hstep |].
      rewrite Hstep. exact Hcase.
    + exists [], q0, x, w. split; [reflexivity |]. split; [reflexivity |].
      right. split; [exact Hx |]. split; [exact Hd |].
      by rewrite for_loop_cons, (loop_body_valid _ _ _ Hx), Hd.
  - exists [], q0, x, w. split; [reflexivity |]. split; [reflexivity |].
    left. split; [exact Hx |]. eexists.
    by rewrite for_loop_cons, (loop_body_invalid _ _ _ Hx).
Qed.

(** With a total table, a run that starts in a declared state stays in
    declared states. *)
Lemma transitions_total_closed self q0 w q :
  transitions_total self → q0 ∈ states self →
  fst (for_loop q0 w self) = Return q → q ∈ states self.
Proof.
  intros Htot. revert q0. induction w as [| x w IH]; intros q0 Hq0 Hw.
  - simpl in Hw. by injection Hw as <-.
  - pose proof (for_loop_return_valid _ _ _ _ Hw) as Hv.
    apply Forall_cons in Hv as [Hx _].
    rewrite for_loop_cons, (loop_body_valid _ _ _ Hx) in Hw.
    pose proof (Htot q0 Hq0 x Hx) as Hd. simpl in Hd.
    destruct (delta self q0 x) as [q1 |]; [| contradiction].
    simpl in Hw. eauto.
Qed.

End runs.

(** ** Properties of [accepts] *)

Section properties.
Context `{Countable State, Countable Symbol, Str Symbol}.
Implicit Types (self : DeterministicFiniteAutomaton State Symbol).
Implicit Types (q : State) (s : Symbol) (w string rest : list Symbol).

(** C2. For an automaton with a total transition function, [accepts] on
    the empty input enters the loop body zero times and returns [true]
    exactly when the start state is an accepting state.  (The proof does
    not use totality: the same holds for every automaton.) *)
Theorem accepts_empty_input self :
  transitions_total self →
  iterations self 0 (start_state self) [] (Return (start_state self))
  ∧ fst (accepts [] self)
    = Return (bool_decide (start_state self ∈ accepting_states self))
  ∧ (fst (accepts [] self) = Return true
     ↔ start_state self ∈ accepting_states self).
Proof.
  intros _. rewrite accepts_unfold. simpl.
  split; [constructor |]. split; [reflexivity |].
  split.
  - intros Hr. injection Hr as Hr. by apply bool_decide_eq_true in Hr.
  - intros Hin. f_equal. by apply bool_decide_eq_true.
Qed.

(** C4. When the run over a prefix [w] arrives in a state [q] whose
    table entry for a symbol [s] of the alphabet is missing, every input
    that continues [w] with [s] makes [accepts] raise [KeyError] (the
    undefined-transition error, a different exception from the
    [ValueError] of an invalid symbol); no state is substituted and no
    boolean is returned.  All symbols consumed up to the gap belong to
    the alphabet. *)
Theorem accepts_undefined_transition self w q s rest :
  reaches self w q → s ∈ alphabet self → delta self q s = None →
  Forall (λ x, x ∈ alphabet self) (w ++ [s])
  ∧ fst (accepts (w ++ s :: rest) self)
    = Raise (KeyError (missing_key self q s))
  ∧ (∀ msg, fst (accepts (w ++ s :: rest) self) ≠ Raise (ValueError msg))
  ∧ (∀ b, fst (accepts (w ++ s :: rest) self) ≠ Return b).
Proof.
  intros Hw Hs Hd.
  assert (fst (accepts (w ++ s :: rest) self)
          = Raise (KeyError (missing_key self q s))) as Hr.
  { apply (accepts_raise_after _ _ q); [exact Hw |].
    by rewrite (loop_body_valid _ _ _ Hs), Hd. }
  split; [| split; [exact Hr | split; intros ?; rewrite Hr; discriminate]].
  apply Forall_app. split.
  - exact (for_loop_return_valid _ _ _ _ Hw).
  - by apply Forall_singleton.
Qed.

(** C5. The membership test comes before the table lookup, at every
    position: when the run over a prefix [w] arrives in [q] and the next
    symbol [s] is outside the alphabet, [accepts] raises the
    [ValueError], whether or not the table has an entry for [q] and [s]
    (in particular when it has none). *)
Theorem accepts_alphabet_check_first self w q s rest :
  reaches self w q → s ∉ alphabet self →
  fst (accepts (w ++ s :: rest) self)
  = Raise (ValueError (format "String contains invalid symbol: " (str s)))
  ∧ (delta self q s = None →
     ∀ key, fst (accepts (w ++ s :: rest) self) ≠ Raise (KeyError key)).
Proof.
  intros Hw Hs.
  assert (fst (accepts (w ++ s :: rest) self)
          = Raise (ValueError (format "String contains invalid symbol: " (str s))))
    as Hr.
  { apply (accepts_raise_after _ _ q); [exact Hw |].
    by rewrite (loop_body_invalid _ _ _ Hs). }
  split; [exact Hr |]. intros _ key. rewrite Hr. discriminate.
Qed.

(** C6. [accepts] is deterministic on inputs over the alphabet: calling
    it again on the object left by a first call with the same input
    gives the same outcome, and so does calling it after a call with any
    other input; nothing but the automaton and the input decides the
    outcome.  (The proof does not use that the symbols are valid.) *)
Theorem accepts_deterministic self string :
  Forall (λ s, s ∈ alphabet self) string →
  fst (accepts string (snd (accepts string self))) = fst (accepts string self)
  ∧ (∀ other,
       fst (accepts string (snd (accepts other self)))
       = fst (accepts string self)).
Proof.
  intros _. split; [| intros other]; by rewrite accepts_self.
Qed.

(** C7. [__init__] stores its five arguments as they are; a call of
    [accepts] leaves the object unchanged, whether it returns or raises;
    and every run, also one that follows another run, starts its local
    [current_state] at the start state. *)
Theorem accepts_leaves_automaton_unchanged :
  (∀ (Q : gset State) (Σ : gset Symbol) (δ : gmap State (gmap Symbol State))
     (q0 : State) (F : gset State),
     states (__init__ Q Σ δ q0 F) = Q
     ∧ alphabet (__init__ Q Σ δ q0 F) = Σ
     ∧ transitions (__init__ Q Σ δ q0 F) = δ
     ∧ start_state (__init__ Q Σ δ q0 F) = q0
     ∧ accepting_states (__init__ Q Σ δ q0 F) = F)
  ∧ (∀ self string, snd (accepts string self) = self)
  ∧ (∀ self earlier string,
       fst (accepts string (snd (accepts earlier self)))
       = match fst (for_loop (start_state self) string self) with
         | Return q => Return (bool_decide (q ∈ accepting_states self))
         | Raise e => Raise e
         end).
Proof.
  split; [| split].
  - intros Q Σ δ q0 F. repeat split.
  - intros self string. apply accepts_self.
  - intros self earlier string. rewrite accepts_self, accepts_unfold.
    destruct (fst (for_loop (start_state self) string self)); reflexivity.
Qed.

(** C8. [accepts] terminates on every automaton and every finite input:
    the loop enters its body a number [n] of times, at most once per
    input symbol, and then the call returns or raises; a call that
    returns a boolean went through exactly one iteration per symbol.
    The count and the result are unique. *)
Theorem accepts_terminates self string :
  ∃ n r,
    iterations self n (start_state self) string r
    ∧ n ≤ length string
    ∧ accepts string self
      = (match r with
         | Return q => Return (bool_decide (q ∈ accepting_states self))
         | Raise e => Raise e
         end, self)
    ∧ (∀ b, fst (accepts string self) = Return b → n = length string)
    ∧ (∀ n' r', iterations self n' (start_state self) string r' →
                n' = n ∧ r' = r).
Proof.
  destruct (for_loop_iterations self (start_state self) string)
    as (n & Hrun & Hle & Hlen).
  exists n, (fst (for_loop (start_state self) string self)).
  split; [exact Hrun |]. split; [exact Hle |]. split; [| split].
  - rewrite accepts_unfold.
    destruct (fst (for_loop (start_state self) string self)); reflexivity.
  - intros b. rewrite accepts_unfold.
    destruct (fst (for_loop (start_state self) string self)) as [q | e];
      [eauto | discriminate].
  - intros n' r' Hrun'. exact (iterations_functional _ _ _ _ _ _ _ Hrun' Hrun).
Qed.

(** C9. [accepts] never reads [states]: two automata with the same
    alphabet, table, start state and accepting states give the same
    outcome (the same boolean or the same exception) on every input,
    whatever their sets of states. *)
Theorem accepts_ignores_states self1 self2 string :
  alphabet self1 = alphabet self2 →
  transitions self1 = transitions self2 →
  start_state self1 = start_state self2 →
  accepting_states self1 = accepting_states self2 →
  fst (accepts string self1) = fst (accepts string self2).
Proof.
  intros Ha Ht Hs Hf.
  assert (∀ q s, fst (loop_body q s self1) = fst (loop_body q s self2)) as Hb.
  { intros q s. destruct (decide (s ∈ alphabet self2)) as [Hv | Hv].
    - rewrite (loop_body_valid self2 _ _ Hv).
      rewrite <- Ha in Hv. rewrite (loop_body_valid self1 _ _ Hv).
      unfold delta, missing_key. rewrite Ht.
      destruct (transitions self2 !! q) as [row |]; simpl; [| reflexivity].
      destruct (row !! s); reflexivity.
    - rewrite (loop_body_invalid self2 _ _ Hv).
      rewrite <- Ha in Hv. by rewrite (loop_body_invalid self1 _ _ Hv). }
  assert (∀ w q, fst (for_loop q w self1) = fst (for_loop q w self2)) as Hl.
  { induction w as [| s w IH]; intros q; [reflexivity |].
    rewrite !for_loop_cons, Hb.
    destruct (fst (loop_body q s self2)); [apply IH | reflexivity]. }
  rewrite !accepts_unfold, Hs, Hf, Hl.
  destruct (fst (for_loop (start_state self2) string self2)); reflexivity.
Qed.

(** An iteration that raises at position [j] ends the call there: the
    call raises that exception after [j + 1] iterations, and nothing
    after position [j] matters. *)
Lemma accepts_raise_at self string j q s e :
  string !! j = Some s → reaches self (take j string) q →
  fst (loop_body q s self) = Raise e →
  fst (accepts string self) = Raise e
  ∧ iterations self (S j) (start_state self) string (Raise e)
  ∧ (∀ later, fst (accepts (take (S j) string ++ later) self) = Raise e).
Proof.
  intros Hj Hw Hb.
  pose proof (take_drop_middle _ _ _ Hj) as Hsplit.
  pose proof (lookup_lt_Some _ _ _ Hj) as Hlt.
  assert (length (take j string) = j) as Hlen by (rewrite length_take; lia).
  split; [| split].
  - rewrite <- Hsplit. by apply (accepts_raise_after _ _ q).
  - rewrite <- Hsplit, <- Hlen at 1. by apply (iterations_raise_after _ _ _ q).
  - intros later. rewrite (take_S_r _ _ _ Hj), <- app_assoc. simpl.
    by apply (accepts_raise_after _ _ q).
Qed.

(** C10. Errors come in the order of the input.  Let the run over the
    first [j] symbols arrive in [q] and let [s] be the symbol at
    position [j].  If [s] is valid and the table has no entry for it in
    [q], the call raises the [KeyError] in iteration [j + 1], whatever
    comes later (invalid symbols included, which are never looked at);
    if [s] is outside the alphabet, the call raises the [ValueError] in
    iteration [j + 1], whatever gap a later position would meet. *)
Theorem accepts_first_error_wins self string j q s :
  string !! j = Some s → reaches self (take j string) q →
  (s ∈ alphabet self → delta self q s = None →
   fst (accepts string self) = Raise (KeyError (missing_key self q s))
   ∧ iterations self (S j) (start_state self) string
       (Raise (KeyError (missing_key self q s)))
   ∧ (∀ later, fst (accepts (take (S j) string ++ later) self)
               = Raise (KeyError (missing_key self q s))))
  ∧ (s ∉ alphabet self →
     fst (accepts string self)
     = Raise (ValueError (format "String contains invalid symbol: " (str s)))
     ∧ iterations self (S j) (start_state self) string
         (Raise (ValueError (format "String contains invalid symbol: " (str s))))
     ∧ (∀ later, fst (accepts (take (S j) string ++ later) self)
                 = Raise (ValueError
                            (format "String contains invalid symbol: " (str s))))).
Proof.
  intros Hj Hw. split.
  - intros Hs Hd. apply (accepts_raise_at _ _ _ q s); [done | done |].
    by rewrite (loop_body_valid _ _ _ Hs), Hd.
  - intros Hs. apply (accepts_raise_at _ _ _ q s); [done | done |].
    by rewrite (loop_body_invalid _ _ _ Hs).
Qed.

(** C3, as the code has it.  An input with a symbol outside the
    alphabet never makes [accepts] return a boolean: the call raises at
    the first position where the loop body raises.  That is the
    [ValueError] when the symbol there is outside the alphabet, and the
    [KeyError] of an earlier gap when the symbol there is valid but has
    no entry in the table.  With a total table and a declared start
    state there is no gap, and the call raises the [ValueError]. *)
Theorem accepts_invalid_symbol self string s :
  s ∈ string → s ∉ alphabet self →
  (∃ w q s0 rest,
     string = w ++ s0 :: rest
     ∧ reaches self w q
     ∧ (((s0 ∉ alphabet self)
         ∧ (∃ msg, fst (accepts string self) = Raise (ValueError msg)))
        ∨ (s0 ∈ alphabet self
           ∧ delta self q s0 = None
           ∧ fst (accepts string self)
             = Raise (KeyError (missing_key self q s0)))))
  ∧ (∀ b, fst (accepts string self) ≠ Return b)
  ∧ (transitions_total self → start_state self ∈ states self →
     ∃ msg, fst (accepts string self) = Raise (ValueError msg)).
Proof.
  intros Hin Hs.
  destruct (for_loop_first_error self string s (start_state self) Hin Hs)
    as (w & q & s0 & rest & Hsplit & Hw & Hcase).
  assert (∀ e, fst (for_loop (start_state self) string self) = Raise e →
               fst (accepts string self) = Raise e) as Hacc.
  { intros e He. by rewrite accepts_unfold, He. }
  split; [| split].
  - exists w, q, s0, rest. split; [exact Hsplit |]. split; [exact Hw |].
    destruct Hcase as [[Hs0 [msg Hr]] | (Hs0 & Hd & Hr)].
    + left. split; [exact Hs0 |]. exists msg. by apply Hacc.
    + right. split; [exact Hs0 |]. split; [exact Hd |]. by apply Hacc.
  - intros b.
    destruct Hcase as [[_ [msg Hr]] | (_ & _ & Hr)];
      rewrite (Hacc _ Hr); discriminate.
  - intros Htot Hstart.
    destruct Hcase as [[_ [msg Hr]] | (Hs0 & Hd & _)].
    + exists msg. by apply Hacc.
    + pose proof (transitions_total_closed _ _ _ _ Htot Hstart Hw) as Hq.
      pose proof (Htot q Hq s0 Hs0) as Hentry. simpl in Hentry.
      by rewrite Hd in Hentry.
Qed.

End properties.

(** ** The notebook's automaton, and an automaton with a gap *)

Lemma m1_total : transitions_total m1.
Proof. apply (bool_decide_unpack _). vm_compute. reflexivity. Qed.

(** C1. On the automaton [m1] of the notebook, [accepts] returns [True]
    on ['111'] and ['010111'], and [False] on ['101'], ['101110'] and the
    empty string. *)
Theorem m1_accepts_scenario :
  fst (accepts (iter_str "111") m1) = Return true
  ∧ fst (accepts (iter_str "010111") m1) = Return true
  ∧ fst (accepts (iter_str "101") m1) = Return false
  ∧ fst (accepts (iter_str "101110") m1) = Return false
  ∧ fst (accepts (iter_str "") m1) = Return false.
Proof. repeat split; vm_compute; reflexivity. Qed.

(** C2 on [m1], whose table is total: the empty input is rejected after
    zero iterations, [q0] not being accepting. *)
Lemma accepts_empty_input_m1 :
  transitions_total m1
  ∧ iterations m1 0 (start_state m1) [] (Return (start_state m1))
  ∧ fst (accepts [] m1) = Return (bool_decide (start_state m1 ∈ accepting_states m1))
  ∧ (fst (accepts [] m1) = Return true ↔ start_state m1 ∈ accepting_states m1).
Proof.
  assert (transitions_total m1) as Htot.
  { apply (bool_decide_unpack _). vm_compute. reflexivity. }
  split; [exact Htot | exact (accepts_empty_input m1 Htot)].
Defined.

(** C3 as stated fails twice.  On [m_gap] the input ['02'] contains the
    invalid symbol ['2'], yet the call raises the [KeyError] of the gap
    met at ['0'].  On [m1] the input ['12'] raises the [ValueError], whose
    text does not contain ['2']. *)
Lemma accepts_invalid_symbol_counterexample :
  ("2" ∈ iter_str "02"
   ∧ ("2" ∉ alphabet m_gap)
   ∧ fst (accepts (iter_str "02") m_gap) = Raise (KeyError (inr "0")))
  ∧ (fst (accepts (iter_str "12") m1)
     = Raise (ValueError "String contains invalid symbol: ")
     ∧ occurs_in "2" "String contains invalid symbol: " = false).
Proof.
  split; [split; [| split] | split].
  - apply (bool_decide_unpack _). vm_compute. reflexivity.
  - apply (bool_decide_unpack _). vm_compute. reflexivity.
  - vm_compute. reflexivity.
  - vm_compute. reflexivity.
  - vm_compute. reflexivity.
Qed.

(** C3 on [m1] and the input ['12']: the call does not return, it raises
    the [ValueError]. *)
Lemma accepts_invalid_symbol_m1 :
  "2" ∈ iter_str "12"
  ∧ ("2" ∉ alphabet m1)
  ∧ (∀ b, fst (accepts (iter_str "12") m1) ≠ Return b)
  ∧ (∃ msg, fst (accepts (iter_str "12") m1) = Raise (ValueError msg)).
Proof.
  assert ("2" ∈ iter_str "12") as Hin.
  { apply (bool_decide_unpack _). vm_compute. reflexivity. }
  assert ("2" ∉ alphabet m1) as Hout.
  { apply (bool_decide_unpack _). vm_compute. reflexivity. }
  assert (transitions_total m1) as Htot.
  { apply (bool_decide_unpack _). vm_compute. reflexivity. }
  assert (start_state m1 ∈ states m1) as Hstart.
  { apply (bool_decide_unpack _). vm_compute. reflexivity. }
  destruct (accepts_invalid_symbol m1 (iter_str "12") "2" Hin Hout)
    as (_ & Hfail & Hvalue).
  split; [exact Hin |]. split; [exact Hout |]. split; [exact Hfail |].
  exact (Hvalue Htot Hstart).
Defined.

(** C4 on [m_gap]: ['10'] leads back to [q0], where ['0'] has no entry;
    the call raises [KeyError('0')] although an invalid symbol follows. *)
Lemma accepts_undefined_transition_m_gap :
  reaches m_gap (iter_str "10") "q0"
  ∧ "0" ∈ alphabet m_gap
  ∧ delta m_gap "q0" "0" = None
  ∧ fst (accepts (iter_str "10" ++ "0" :: iter_str "12") m_gap)
    = Raise (KeyError (inr "0")).
Proof.
  assert (reaches m_gap (iter_str "10") "q0") as Hw.
  { vm_compute. reflexivity. }
  assert ("0" ∈ alphabet m_gap) as Hs.
  { apply (bool_decide_unpack _). vm_compute. reflexivity. }
  assert (delta m_gap "q0" "0" = None) as Hd.
  { vm_compute. reflexivity. }
  split; [exact Hw |]. split; [exact Hs |]. split; [exact Hd |].
  exact (proj1 (proj2
    (accepts_undefined_transition m_gap (iter_str "10") "q0" "0" (iter_str "12")
       Hw Hs Hd))).
Defined.

(** C5 on [m1]: after ['1'] the automaton is in [q1], whose row has no
    entry for ['2']; the call raises the [ValueError], not a [KeyError]. *)
Lemma accepts_alphabet_check_first_m1 :
  reaches m1 (iter_str "1") "q1"
  ∧ ("2" ∉ alphabet m1)
  ∧ delta m1 "q1" "2" = None
  ∧ fst (accepts (iter_str "1" ++ "2" :: []) m1)
    = Raise (ValueError "String contains invalid symbol: ").
Proof.
  assert (reaches m1 (iter_str "1") "q1") as Hw.
  { vm_compute. reflexivity. }
  assert ("2" ∉ alphabet m1) as Hs.
  { apply (bool_decide_unpack _). vm_compute. reflexivity. }
  split; [exact Hw |]. split; [exact Hs |]. split; [vm_compute; reflexivity |].
  exact (proj1 (accepts_alphabet_check_first m1 (iter_str "1") "q1" "2" [] Hw Hs)).
Defined.

(** C6 on [m1] and the input ['010111']. *)
Lemma accepts_deterministic_m1 :
  Forall (λ s, s ∈ alphabet m1) (iter_str "010111")
  ∧ fst (accepts (iter_str "010111") (snd (accepts (iter_str "010111") m1)))
    = fst (accepts (iter_str "010111") m1).
Proof.
  assert (Forall (λ s, s ∈ alphabet m1) (iter_str "010111")) as Hv.
  { apply (bool_decide_unpack _). vm_compute. reflexivity. }
  split; [exact Hv |].
  exact (proj1 (accepts_deterministic m1 (iter_str "010111") Hv)).
Defined.

(** C9 on [m1] and a copy of it that declares no state at all: the run
    over ['111'] ends in [q3] in both. *)
Lemma accepts_ignores_states_m1 :
  ("q3" ∉ states (with_states ∅ m1))
  ∧ fst (accepts (iter_str "111") m1)
    = fst (accepts (iter_str "111") (with_states ∅ m1)).
Proof.
  split.
  - apply (bool_decide_unpack _). vm_compute. reflexivity.
  - exact (accepts_ignores_states m1 (with_states ∅ m1) (iter_str "111")
             eq_refl eq_refl eq_refl eq_refl).
Defined.

(** C10 on [m_gap]: in ['1002'] the gap at position 2 wins over the
    invalid symbol at position 3; in ['120'] the invalid symbol at
    position 1 ends the call in its second iteration. *)
Lemma accepts_first_error_wins_m_gap :
  (fst (accepts (iter_str "1002") m_gap) = Raise (KeyError (inr "0"))
   ∧ iterations m_gap 3 (start_state m_gap) (iter_str "1002")
       (Raise (KeyError (inr "0"))))
  ∧ (fst (accepts (iter_str "120") m_gap)
     = Raise (ValueError "String contains invalid symbol: ")
     ∧ iterations m_gap 2 (start_state m_gap) (iter_str "120")
         (Raise (ValueError "String contains invalid symbol: "))).
Proof.
  assert (reaches m_gap (take 2 (iter_str "1002")) "q0") as Hw1.
  { vm_compute. reflexivity. }
  assert ("0" ∈ alphabet m_gap) as Hs1.
  { apply (bool_decide_unpack _). vm_compute. reflexivity. }
  assert (delta m_gap "q0" "0" = None) as Hd1.
  { vm_compute. reflexivity. }
  assert (reaches m_gap (take 1 (iter_str "120")) "q1") as Hw2.
  { vm_compute. reflexivity. }
  assert ("2" ∉ alphabet m_gap) as Hs2.
  { apply (bool_decide_unpack _). vm_compute. reflexivity. }
  split.
  - destruct (proj1 (accepts_first_error_wins m_gap (iter_str "1002") 2 "q0" "0"
                       eq_refl Hw1) Hs1 Hd1) as (Hr & Hn & _).
    split; [exact Hr | exact Hn].
  - destruct (proj2 (accepts_first_error_wins m_gap (iter_str "120") 1 "q1" "2"
                       eq_refl Hw2) Hs2) as (Hr & Hn & _).
    split; [exact Hr | exact Hn].
Defined.

(** ** Further properties of [accepts] *)

Section more_properties.
Context `{Countable State, Countable Symbol, Str Symbol}.
Implicit Types (self : DeterministicFiniteAutomaton State Symbol).
Implicit Types (q : State) (s : Symbol) (w string rest : list Symbol).

(** The loop reads nothing but the alphabet and the table. *)
Lemma for_loop_same_table self1 self2 q w :
  alphabet self1 = alphabet self2 → transitions self1 = transitions self2 →
  fst (for_loop q w self1) = fst (for_loop q w self2).
Proof.
  intros Ha Ht. revert q. induction w as [| s w IH]; intros q; [reflexivity |].
  assert (fst (loop_body q s self1) = fst (loop_body q s self2)) as Hb.
  { destruct (decide (s ∈ alphabet self2)) as [Hv | Hv].
    - rewrite (loop_body_valid self2 _ _ Hv).
      rewrite <- Ha in Hv. rewrite (loop_body_valid self1 _ _ Hv).
      unfold delta, missing_key. rewrite Ht.
      destruct (transitions self2 !! q) as [row |]; simpl; [| reflexivity].
      destruct (row !! s); reflexivity.
    - rewrite (loop_body_invalid self2 _ _ Hv).
      rewrite <- Ha in Hv. by rewrite (loop_body_invalid self1 _ _ Hv). }
  rewrite !for_loop_cons, Hb.
  destruct (fst (loop_body q s self2)); [apply IH | reflexivity].
Qed.

(** With a total table, a run over valid symbols from a declared state
    goes through. *)
Lemma transitions_total_run self q0 w :
  transitions_total self → q0 ∈ states self →
  Forall (λ s, s ∈ alphabet self) w →
  ∃ q, fst (for_loop q0 w self) = Return q ∧ q ∈ states self.
Proof.
  intros Htot Hq0 Hw. revert q0 Hq0.
  induction Hw as [| s w Hs _ IH]; intros q0 Hq0; [by exists q0 |].
  rewrite for_loop_cons, (loop_body_valid _ _ _ Hs).
  pose proof (Htot q0 Hq0 s Hs) as Hd. simpl in Hd.
  destruct (delta self q0 s) as [q1 |]; [| contradiction]. simpl. by apply IH.
Qed.

(** Where a [ValueError] comes from, and what it says. *)
Lemma for_loop_value_error self q0 w msg :
  fst (for_loop q0 w self) = Raise (ValueError msg) →
  msg = "String contains invalid symbol: " ∧ ∃ s, s ∈ w ∧ s ∉ alphabet self.
Proof.
  revert q0. induction w as [| s w IH]; intros q0 Hr; [discriminate |].
  rewrite for_loop_cons in Hr.
  destruct (decide (s ∈ alphabet self)) as [Hs | Hs].
  - rewrite (loop_body_valid _ _ _ Hs) in Hr.
    destruct (delta self q0 s) as [q1 |]; simpl in Hr; [| discriminate].
    destruct (IH _ Hr) as (Hmsg & x & Hx & Hxa).
    split; [exact Hmsg |]. exists x. split; [by apply list_elem_of_further | exact Hxa].
  - rewrite (loop_body_invalid _ _ _ Hs) in Hr. simpl in Hr.
    injection Hr as <-. split; [reflexivity |].
    exists s. split; [apply list_elem_of_here | exact Hs].
Qed.

(** Where a [KeyError] comes from. *)
Lemma for_loop_key_error self q0 w key :
  fst (for_loop q0 w self) = Raise (KeyError key) →
  ∃ w1 q s rest,
    w = w1 ++ s :: rest
    ∧ fst (for_loop q0 w1 self) = Return q
    ∧ s ∈ alphabet self
    ∧ delta self q s = None
    ∧ key = missing_key self q s.
Proof.
  revert q0. induction w as [| x w IH]; intros q0 Hr; [discriminate |].
  rewrite for_loop_cons in Hr.
  destruct (decide (x ∈ alphabet self)) as [Hx | Hx].
  - rewrite (loop_body_valid _ _ _ Hx) in Hr.
    destruct (delta self q0 x) as [q1 |] eqn:Hd; simpl in Hr.
    + destruct (IH _ Hr) as (w1 & q & s & rest & -> & Hw1 & Hs & Hds & Hkey).
      exists (x :: w1), q, s, rest. split; [reflexivity |].
      split; [| done].
      by rewrite for_loop_cons, (loop_body_valid _ _ _ Hx), Hd.
    + injection Hr as <-. by exists [], q0, x, w.
  - rewrite (loop_body_invalid _ _ _ Hx) in Hr. discriminate.
Qed.

(** X1. For an automaton with a total table and a declared start state,
    [accepts] returns a boolean exactly on the inputs whose symbols all
    belong to the alphabet, and the run then ends in a declared state. *)
Theorem accepts_total_returns self string :
  transitions_total self → start_state self ∈ states self →
  (Forall (λ s, s ∈ alphabet self) string
   ↔ ∃ b, fst (accepts string self) = Return b)
  ∧ (Forall (λ s, s ∈ alphabet self) string →
     ∃ q, reaches self string q ∧ q ∈ states self).
Proof.
  intros Htot Hstart. split; [split |].
  - intros Hv.
    destruct (transitions_total_run _ _ _ Htot Hstart Hv) as (q & Hq & _).
    rewrite accepts_unfold, Hq. eauto.
  - intros [b Hb]. rewrite accepts_unfold in Hb.
    destruct (fst (for_loop (start_state self) string self)) as [q | e] eqn:Hq;
      [| discriminate].
    exact (for_loop_return_valid _ _ _ _ Hq).
  - intros Hv. exact (transitions_total_run _ _ _ Htot Hstart Hv).
Qed.

(** X2. Runs compose: when the run over [w1] arrives in [q], the outcome
    on [w1 ++ w2] is the outcome on [w2] of the same automaton started in
    [q]. *)
Theorem accepts_app self w1 w2 q :
  reaches self w1 q →
  fst (accepts (w1 ++ w2) self) = fst (accepts w2 (with_start q self)).
Proof.
  unfold reaches. intros Hw.
  rewrite (accepts_unfold self), (accepts_unfold (with_start q self)).
  rewrite for_loop_app, Hw.
  change (start_state (with_start q self)) with q.
  change (accepting_states (with_start q self)) with (accepting_states self).
  rewrite (for_loop_same_table (with_start q self) self q w2 eq_refl eq_refl).
  destruct (fst (for_loop q w2 self)); reflexivity.
Qed.

(** X3. Whenever [accepts] raises a [ValueError], its text is the fixed
    string ['String contains invalid symbol: ']: the symbol is not part of
    it.  The input then does contain a symbol outside the alphabet. *)
Theorem accepts_value_error_message self string msg :
  fst (accepts string self) = Raise (ValueError msg) →
  msg = "String contains invalid symbol: "
  ∧ ∃ s, s ∈ string ∧ s ∉ alphabet self.
Proof.
  rewrite accepts_unfold. intros Hr.
  destruct (fst (for_loop (start_state self) string self)) as [q | e] eqn:Hq;
    [discriminate |].
  injection Hr as ->. exact (for_loop_value_error _ _ _ _ Hq).
Qed.

(** X4. Whenever [accepts] raises a [KeyError], the input splits at a
    symbol of the alphabet for which the table has no entry in the state
    reached before it, and the key is the state when it has no row and the
    symbol otherwise. *)
Theorem accepts_key_error_origin self string key :
  fst (accepts string self) = Raise (KeyError key) →
  ∃ w q s rest,
    string = w ++ s :: rest
    ∧ reaches self w q
    ∧ s ∈ alphabet self
    ∧ delta self q s = None
    ∧ key = missing_key self q s.
Proof.
  rewrite accepts_unfold. intros Hr.
  destruct (fst (for_loop (start_state self) string self)) as [q | e] eqn:Hq;
    [discriminate |].
  injection Hr as ->. exact (for_loop_key_error _ _ _ _ Hq).
Qed.

(** X5. A failure is final: when [accepts] raises on an input, it raises
    the same exception on every input that extends it. *)
Theorem accepts_raise_extends self w rest e :
  fst (accepts w self) = Raise e →
  fst (accepts (w ++ rest) self) = Raise e.
Proof.
  rewrite !accepts_unfold, for_loop_app.
  destruct (fst (for_loop (start_state self) w self)) as [q | e'];
    [discriminate | done].
Qed.

End more_properties.

Section total_tables.
Context `{Countable State, Countable Symbol, Str Symbol}.
Implicit Types (self : DeterministicFiniteAutomaton State Symbol).

(** With a total table and a declared start state, an input with a symbol
    outside the alphabet meets no gap before that symbol. *)
Lemma accepts_total_invalid self (string : list Symbol) (s : Symbol) :
  transitions_total self → start_state self ∈ states self →
  s ∈ string → s ∉ alphabet self →
  fst (accepts string self)
  = Raise (ValueError "String contains invalid symbol: ").
Proof.
  intros Htot Hstart Hin Hs.
  destruct (for_loop_first_error self string s (start_state self) Hin Hs)
    as (w & q & s0 & rest & _ & Hw & [[_ [msg Hr]] | (Hs0 & Hd & _)]).
  - destruct (for_loop_value_error _ _ _ _ Hr) as [-> _].
    by rewrite accepts_unfold, Hr.
  - pose proof (transitions_total_closed _ _ _ _ Htot Hstart Hw) as Hq.
    pose proof (Htot q Hq s0 Hs0) as Hentry. simpl in Hentry.
    by rewrite Hd in Hentry.
Qed.

End total_tables.

(** ** The language of the notebook's automaton *)

Lemma m1_alphabet (s : string) : s ∈ alphabet m1 → s = "0" ∨ s = "1".
Proof. simpl. set_solver. Qed.

Lemma m1_read_zero (n : nat) :
  fst (for_loop (m1_state n) ["0"] m1) = Return "q0".
Proof. destruct n as [| [| [| n]]]; vm_compute; reflexivity. Qed.

Lemma m1_read_one (n : nat) :
  fst (for_loop (m1_state n) ["1"] m1) = Return (m1_state (S n)).
Proof. destruct n as [| [| [| n]]]; vm_compute; reflexivity. Qed.

(** After a valid input, [m1] is in the state that counts the ['1'] read
    last, up to three. *)
Lemma m1_run (w : list string) :
  Forall (λ s, s ∈ alphabet m1) w →
  fst (for_loop "q0" w m1) = Return (m1_state (leading_ones (reverse w))).
Proof.
  induction w as [| x w IH] using rev_ind; [reflexivity |].
  intros [Hw Hx]%Forall_app. rewrite Forall_singleton in Hx.
  rewrite for_loop_app, (IH Hw), reverse_snoc.
  destruct (m1_alphabet _ Hx) as [-> | ->]; cbn [leading_ones].
  - rewrite decide_False by discriminate. by rewrite m1_read_zero.
  - rewrite decide_True by reflexivity. by rewrite m1_read_one.
Qed.

Lemma m1_accepting (n : nat) :
  m1_state n ∈ accepting_states m1 ↔ 3 ≤ n.
Proof.
  destruct n as [| [| [| n]]]; simpl; split; intros Hn; try lia;
    try (by apply elem_of_singleton in Hn); by apply elem_of_singleton.
Qed.

Lemma leading_ones_suffix (w : list string) :
  3 ≤ leading_ones (reverse w) ↔ ["1"; "1"; "1"] `suffix_of` w.
Proof.
  split.
  - intros Hn. exists (reverse (drop 3 (reverse w))).
    rewrite <- (reverse_involutive w) at 1.
    destruct (reverse w) as [| a [| b [| c r]]]; cbn [leading_ones] in Hn;
      repeat case_decide; try lia; subst.
    cbn [drop]. by rewrite !reverse_cons, <- !app_assoc.
  - intros [k ->]. rewrite reverse_app.
    change (reverse ["1"; "1"; "1"]) with ["1"; "1"; "1"].
    cbn [app leading_ones]. rewrite !decide_True by reflexivity. lia.
Qed.

(** X6. The language of [m1]: on an input over ['0'] and ['1'] the call
    returns [True] exactly when the input ends with three ['1'], and
    [False] otherwise; on any other input it raises the [ValueError]. *)
Theorem m1_language (w : list string) :
  fst (accepts w m1)
  = if decide (Forall (λ s, s ∈ alphabet m1) w) then
      Return (bool_decide (["1"; "1"; "1"] `suffix_of` w))
    else
      Raise (ValueError "String contains invalid symbol: ").
Proof.
  destruct (decide (Forall (λ s, s ∈ alphabet m1) w)) as [Hv | Hv].
  - rewrite accepts_unfold.
    change (start_state m1) with "q0". rewrite (m1_run w Hv).
    cbn [fst]. f_equal. apply bool_decide_ext.
    rewrite m1_accepting. apply leading_ones_suffix.
  - apply not_Forall_Exists in Hv; [| intros s; apply _].
    apply Exists_exists in Hv as (s & Hin & Hs).
    apply (accepts_total_invalid m1 w s); [exact m1_total | | exact Hin | exact Hs].
    simpl. set_solver.
Qed.

(** ** Properties of the graph description built by [plot_structure] *)

Lemma state_node_id (self : DeterministicFiniteAutomaton string string)
    (q : string) :
  node_id (state_node self q) = q ∧ node_label (state_node self q) = q.
Proof. unfold state_node. by case_decide. Qed.

Lemma state_node_ids (self : DeterministicFiniteAutomaton string string)
    (l : list string) :
  node_id <$> (state_node self <$> l) = l.
Proof.
  induction l as [| q l IH]; [reflexivity |].
  rewrite !fmap_cons, IH. f_equal. apply state_node_id.
Qed.

(** The edges of the two nested loops are the entries of the table. *)
Lemma elem_of_transition_edges
    (self : DeterministicFiniteAutomaton string string) (e : edge) :
  e ∈ transition_edges self
  ↔ delta self (edge_source e) (edge_label e) = Some (edge_target e).
Proof.
  unfold transition_edges. rewrite list_elem_of_bind. split.
  - intros ([src row] & He & Hrow).
    apply list_elem_of_fmap in He as ([lbl tgt] & -> & Hent).
    apply elem_of_map_to_list in Hrow. apply elem_of_map_to_list in Hent.
    unfold delta. simpl. rewrite Hrow. exact Hent.
  - intros Hd. unfold delta in Hd.
    destruct (transitions self !! edge_source e) as [row |] eqn:Hrow;
      simpl in Hd; [| discriminate].
    exists (edge_source e, row). split; [| by apply elem_of_map_to_list].
    apply list_elem_of_fmap. exists (edge_label e, edge_target e).
    split; [by destruct e | by apply elem_of_map_to_list].
Qed.

Lemma NoDup_transition_edges
    (self : DeterministicFiniteAutomaton string string) :
  NoDup (transition_edges self).
Proof.
  unfold transition_edges. apply NoDup_bind.
  - intros [src1 row1] [src2 row2] e Hx1 Hx2 He1 He2.
    apply list_elem_of_fmap in He1 as ([l1 t1] & -> & _).
    apply list_elem_of_fmap in He2 as ([l2 t2] & [= -> _ _] & _).
    apply elem_of_map_to_list in Hx1. apply elem_of_map_to_list in Hx2.
    congruence.
  - intros [src row] _. apply NoDup_fmap_2_strong; [| apply NoDup_map_to_list].
    intros [l1 t1] [l2 t2] _ _ [= -> ->]. reflexivity.
  - apply NoDup_map_to_list.
Qed.

(** A list built by [≫=] from pieces of one length. *)
Lemma length_bind_const {A B} (f : A → list B) (k : nat) (l : list A) :
  Forall (λ x, length (f x) = k) l → length (l ≫= f) = length l * k.
Proof.
  induction 1 as [| x l Hx _ IH]; [reflexivity |].
  rewrite bind_cons, length_app, Hx, IH. simpl. lia.
Qed.

(** X7. The nodes: the hidden start node comes first, then one node per
    declared state and no other.  The node of a state has the state as id
    and as label, and carries the border metadata exactly when the state
    is accepting. *)
Theorem plot_structure_nodes_states
    (self : DeterministicFiniteAutomaton string string) :
  (∃ rest,
     plot_structure_nodes self = hidden_start_node :: rest
     ∧ length rest = size (states self)
     ∧ NoDup (node_id <$> rest)
     ∧ (∀ q, q ∈ node_id <$> rest ↔ q ∈ states self)
     ∧ (∀ n, n ∈ rest →
          node_label n = node_id n
          ∧ (node_id n ∈ accepting_states self →
             node_metadata n
             = Some [("border_size", JFloat 15 (-1)); ("border_color", JStr "black")])
          ∧ (node_id n ∉ accepting_states self → node_metadata n = None))).
Proof.
  exists (state_node self <$> elements (states self)).
  split; [reflexivity |]. split; [by rewrite length_fmap |].
  rewrite state_node_ids. split; [apply NoDup_elements |].
  split; [intros q; apply elem_of_elements |].
  intros n (q & -> & _)%list_elem_of_fmap.
  unfold state_node. case_decide; simpl; repeat split; done.
Qed.

(** X8. The ids of the nodes are pairwise distinct exactly when no state
    is called ['__start']: the hidden start node takes that id without a
    check. *)
Theorem plot_structure_node_ids_distinct
    (self : DeterministicFiniteAutomaton string string) :
  NoDup (node_id <$> plot_structure_nodes self) ↔ "__start" ∉ states self.
Proof.
  unfold plot_structure_nodes. rewrite fmap_cons, state_node_ids.
  change (node_id hidden_start_node) with "__start".
  rewrite NoDup_cons, elem_of_elements. split; [by intros [? _] |].
  intros Hs. split; [exact Hs | apply NoDup_elements].
Qed.

(** X9. The edges are the table: besides the hidden start edge, which
    comes first and leads from ['__start'] to the start state with an
    empty label, there is an edge from [source] to [target] labelled
    [label] exactly when [transitions[source][label]] is [target]; each
    entry of the table gives one edge, and two of these edges with the
    same source and label are the same edge. *)
Theorem plot_structure_edges_table
    (self : DeterministicFiniteAutomaton string string) :
  (∃ rest,
     plot_structure_edges self = mkEdge "__start" (start_state self) "" :: rest
     ∧ NoDup rest
     ∧ (∀ source target label,
          mkEdge source target label ∈ rest
          ↔ delta self source label = Some target)
     ∧ (∀ e1 e2, e1 ∈ rest → e2 ∈ rest →
          edge_source e1 = edge_source e2 → edge_label e1 = edge_label e2 →
          e1 = e2)).
Proof.
  exists (transition_edges self). split; [reflexivity |].
  split; [apply NoDup_transition_edges |]. split.
  - intros source target label. apply elem_of_transition_edges.
  - intros [s1 t1 l1] [s2 t2 l2] H1 H2 Hs Hl. simpl in Hs, Hl. subst.
    apply elem_of_transition_edges in H1. apply elem_of_transition_edges in H2.
    simpl in H1, H2. congruence.
Qed.

(** X10. For a table with a row for every declared state and an entry for
    every symbol of the alphabet in every row, and nothing else, the graph
    has one edge per state and symbol, and the hidden start edge. *)
Theorem plot_structure_edges_count
    (self : DeterministicFiniteAutomaton string string) :
  table_complete self →
  length (plot_structure_edges self)
  = 1 + size (states self) * size (alphabet self).
Proof.
  intros [Hdom Hrows]. unfold plot_structure_edges, transition_edges.
  cbn [length]. f_equal.
  rewrite (length_bind_const _ (size (alphabet self))).
  - by rewrite length_map_to_list, <- Hdom, size_dom.
  - apply Forall_forall. intros [q row] Hq. apply elem_of_map_to_list in Hq.
    rewrite length_fmap, length_map_to_list, <- (Hrows q row Hq).
    by rewrite size_dom.
Qed.

(** An edge labelled by a symbol of the alphabet is an entry of the
    table, provided the empty label of the hidden edge is no symbol. *)
Lemma elem_of_plot_structure_edges_symbol
    (self : DeterministicFiniteAutomaton string string) (q q' s : string) :
  "" ∉ alphabet self → s ∈ alphabet self →
  mkEdge q q' s ∈ plot_structure_edges self ↔ delta self q s = Some q'.
Proof.
  intros Hempty Hs. unfold plot_structure_edges.
  rewrite elem_of_cons, elem_of_transition_edges. simpl. split; [| by right].
  intros [[= _ _ ->] | Hd]; [contradiction | exact Hd].
Qed.

Lemma path_for_loop (self : DeterministicFiniteAutomaton string string)
    (q0 : string) (w : list string) (q : string) :
  "" ∉ alphabet self → Forall (λ s, s ∈ alphabet self) w →
  fst (for_loop q0 w self) = Return q
  ↔ path (plot_structure_edges self) q0 w q.
Proof.
  intros Hempty Hw. revert q0.
  induction Hw as [| s w Hs _ IH]; intros q0.
  - simpl. split.
    + intros [= ->]. constructor.
    + intros Hp. by inversion Hp.
  - rewrite for_loop_cons, (loop_body_valid _ _ _ Hs). split.
    + destruct (delta self q0 s) as [q1 |] eqn:Hd; simpl; [| discriminate].
      intros Hr. apply (path_edge _ _ _ q1).
      * by apply elem_of_plot_structure_edges_symbol.
      * by apply IH.
    + intros Hp. inversion Hp as [| ? ? q1 ? ? He Hrest]; subst.
      apply elem_of_plot_structure_edges_symbol in He; [| done | done].
      rewrite He. simpl. by apply IH.
Qed.

(** X11. When every row of the table belongs to a declared state and
    leads to declared states, and the start state is declared, every edge
    of the graph joins two nodes of the graph. *)
Theorem plot_structure_edges_between_nodes
    (self : DeterministicFiniteAutomaton string string) (e : edge) :
  table_within_states self → start_state self ∈ states self →
  e ∈ plot_structure_edges self →
  edge_source e ∈ node_id <$> plot_structure_nodes self
  ∧ edge_target e ∈ node_id <$> plot_structure_nodes self.
Proof.
  intros Htab Hstart He.
  unfold plot_structure_nodes. rewrite fmap_cons, state_node_ids.
  rewrite !elem_of_cons, !elem_of_elements.
  unfold plot_structure_edges in He. apply elem_of_cons in He as [-> | He].
  - simpl. split; [by left | by right].
  - apply elem_of_transition_edges in He. unfold delta in He.
    destruct (transitions self !! edge_source e) as [row |] eqn:Hrow;
      simpl in He; [| discriminate].
    destruct (Htab _ _ Hrow) as [Hsrc Htgt].
    split; right; [exact Hsrc | exact (Htgt _ _ He)].
Qed.

(** X12. The graph shows what [accepts] does.  When the empty text is no
    symbol of the alphabet, a run over valid symbols arrives in a state
    exactly when the graph has a walk from the start state to that state
    whose edge labels spell the input; so the input is accepted exactly
    when such a walk ends in an accepting state. *)
Theorem accepts_follows_plot
    (self : DeterministicFiniteAutomaton string string) (w : list string) :
  "" ∉ alphabet self → Forall (λ s, s ∈ alphabet self) w →
  (∀ q, reaches self w q
        ↔ path (plot_structure_edges self) (start_state self) w q)
  ∧ (fst (accepts w self) = Return true
     ↔ ∃ q, path (plot_structure_edges self) (start_state self) w q
            ∧ q ∈ accepting_states self).
Proof.
  intros Hempty Hw. split.
  - intros q. by apply path_for_loop.
  - rewrite accepts_unfold.
    destruct (fst (for_loop (start_state self) w self)) as [qf | e] eqn:Hrun;
      simpl; split.
    + intros [= Hb]. apply bool_decide_eq_true in Hb.
      exists qf. split; [by apply path_for_loop | exact Hb].
    + intros (q & Hp & Hq). apply path_for_loop in Hp; [| done | done].
      rewrite Hrun in Hp. injection Hp as ->. f_equal. by apply bool_decide_eq_true.
    + discriminate.
    + intros (q & Hp & _). apply path_for_loop in Hp; [| done | done].
      rewrite Hrun in Hp. discriminate.
Qed.

(** ** The further properties on the automata above *)

(** X1 on [m1] and the input ['0110']. *)
Lemma accepts_total_returns_m1 :
  transitions_total m1
  ∧ start_state m1 ∈ states m1
  ∧ (Forall (λ s, s ∈ alphabet m1) (iter_str "0110")
     ↔ ∃ b, fst (accepts (iter_str "0110") m1) = Return b).
Proof.
  assert (transitions_total m1) as Htot.
  { apply (bool_decide_unpack _). vm_compute. reflexivity. }
  assert (start_state m1 ∈ states m1) as Hstart.
  { apply (bool_decide_unpack _). vm_compute. reflexivity. }
  split; [exact Htot |]. split; [exact Hstart |].
  exact (proj1 (accepts_total_returns m1 (iter_str "0110") Htot Hstart)).
Defined.

(** X2 on [m1]: ['11'] leads to [q2], from where ['1'] is accepted. *)
Lemma accepts_app_m1 :
  reaches m1 (iter_str "11") "q2"
  ∧ fst (accepts (iter_str "11" ++ iter_str "1") m1)
    = fst (accepts (iter_str "1") (with_start "q2" m1)).
Proof.
  assert (reaches m1 (iter_str "11") "q2") as Hw.
  { vm_compute. reflexivity. }
  split; [exact Hw |].
  exact (accepts_app m1 (iter_str "11") (iter_str "1") "q2" Hw).
Defined.

(** X3 on [m1] and the input ['12']. *)
Lemma accepts_value_error_message_m1 :
  fst (accepts (iter_str "12") m1)
  = Raise (ValueError "String contains invalid symbol: ")
  ∧ ∃ s, s ∈ iter_str "12" ∧ s ∉ alphabet m1.
Proof.
  assert (fst (accepts (iter_str "12") m1)
          = Raise (ValueError "String contains invalid symbol: ")) as Hr.
  { vm_compute. reflexivity. }
  split; [exact Hr |].
  exact (proj2 (accepts_value_error_message m1 (iter_str "12") _ Hr)).
Defined.

(** X4 on [m_gap] and the input ['10012']. *)
Lemma accepts_key_error_origin_m_gap :
  fst (accepts (iter_str "10012") m_gap) = Raise (KeyError (inr "0"))
  ∧ ∃ w q s rest,
      iter_str "10012" = w ++ s :: rest
      ∧ reaches m_gap w q
      ∧ s ∈ alphabet m_gap
      ∧ delta m_gap q s = None
      ∧ inr "0" = missing_key m_gap q s.
Proof.
  assert (fst (accepts (iter_str "10012") m_gap) = Raise (KeyError (inr "0")))
    as Hr.
  { vm_compute. reflexivity. }
  split; [exact Hr |].
  exact (accepts_key_error_origin m_gap (iter_str "10012") (inr "0") Hr).
Defined.

(** X5 on [m_gap]: ['0'] fails, and so does ['011']. *)
Lemma accepts_raise_extends_m_gap :
  fst (accepts (iter_str "0") m_gap) = Raise (KeyError (inr "0"))
  ∧ fst (accepts (iter_str "0" ++ iter_str "11") m_gap)
    = Raise (KeyError (inr "0")).
Proof.
  assert (fst (accepts (iter_str "0") m_gap) = Raise (KeyError (inr "0")))
    as Hr.
  { vm_compute. reflexivity. }
  split; [exact Hr |].
  exact (accepts_raise_extends m_gap (iter_str "0") (iter_str "11") _ Hr).
Defined.

(** X10 on [m1]: four states and two symbols give nine edges. *)
Lemma plot_structure_edges_count_m1 :
  table_complete m1
  ∧ length (plot_structure_edges m1) = 1 + size (states m1) * size (alphabet m1).
Proof.
  assert (table_complete m1) as Hc.
  { unfold table_complete. apply (bool_decide_unpack _). vm_compute. reflexivity. }
  split; [exact Hc | exact (plot_structure_edges_count m1 Hc)].
Defined.

(** X11 on [m1] and its edge from [q2] to [q3]. *)
Lemma plot_structure_edges_between_nodes_m1 :
  table_within_states m1
  ∧ start_state m1 ∈ states m1
  ∧ mkEdge "q2" "q3" "1" ∈ plot_structure_edges m1
  ∧ "q2" ∈ node_id <$> plot_structure_nodes m1
  ∧ "q3" ∈ node_id <$> plot_structure_nodes m1.
Proof.
  assert (table_within_states m1) as Htab.
  { unfold table_within_states. apply (bool_decide_unpack _). vm_compute. reflexivity. }
  assert (start_state m1 ∈ states m1) as Hstart.
  { apply (bool_decide_unpack _). vm_compute. reflexivity. }
  assert (mkEdge "q2" "q3" "1" ∈ plot_structure_edges m1) as He.
  { apply list_elem_of_further, elem_of_transition_edges. vm_compute. reflexivity. }
  split; [exact Htab |]. split; [exact Hstart |]. split; [exact He |].
  exact (plot_structure_edges_between_nodes m1 (mkEdge "q2" "q3" "1") Htab Hstart He).
Defined.

(** X12 on [m1] and the input ['111']. *)
Lemma accepts_follows_plot_m1 :
  ("" ∉ alphabet m1)
  ∧ Forall (λ s, s ∈ alphabet m1) (iter_str "111")
  ∧ ∃ q, path (plot_structure_edges m1) (start_state m1) (iter_str "111") q
         ∧ q ∈ accepting_states m1.
Proof.
  assert ("" ∉ alphabet m1) as Hempty.
  { apply (bool_decide_unpack _). vm_compute. reflexivity. }
  assert (Forall (λ s, s ∈ alphabet m1) (iter_str "111")) as Hv.
  { apply (bool_decide_unpack _). vm_compute. reflexivity. }
  assert (fst (accepts (iter_str "111") m1) = Return true) as Hr.
  { vm_compute. reflexivity. }
  split; [exact Hempty |]. split; [exact Hv |].
  exact (proj1 (proj2 (accepts_follows_plot m1 (iter_str "111") Hempty Hv)) Hr).
Defined.
